(** * Shallow embedding of dbee/clients/redshift.go

    The Redshift client of nvim-dbee: [RedshiftClient.Query], which wires
    the release of the acquired connection into the returned iterator, and
    [fetchPsqlLayouts] / [getLayoutType], which turn the rows of a metadata
    query into a two-level layout tree (schema -> tables and views). *)

From Stdlib Require Import Sorting.Permutation.
From stdpp Require Import base gmap strings list fin_maps.

Open Scope string_scope.
Open Scope list_scope.
Set Warnings "-register-all".


(** ** models: layout types, layout nodes, rows *)

(** [models.LayoutType]; [LayoutTypeNone] is the untyped kind. *)
Inductive LayoutType :=
  | LayoutTypeNone
  | LayoutTypeTable
  | LayoutTypeView.

(** [models.Layout]: a struct with a recursive [Children] slice. *)
Inductive Layout := mkLayout {
  Name : string;
  Schema : string;
  Database : string;
  Type_ : LayoutType;  (* the Go field [Type]; [Type] is a keyword *)
  Children : list Layout
}.

(** A column value of a [models.Row] ([]any): the dynamic type matters
    for the type assertions [row[i].(string)]. *)
Inductive value :=
  | VString (s : string)
  | VInt (z : Z)
  | VBool (b : bool)
  | VNil.

Definition Row := list value.

(** Errors returned by the driver or by [IterResult.Next]. *)
Inductive error :=
  | ConnError (msg : string)
  | QueryError (msg : string)
  | RowError (msg : string).

(** Outcome of a Go call returning [(T, error)], with a run-time panic
    (failed type assertion, index out of range) as a third outcome. *)
Inductive outcome (A : Type) :=
  | Ok (a : A)
  | Err (e : error)
  | Panic.
Arguments Ok {A} a.
Arguments Err {A} e.
Arguments Panic {A}.

(** ** getLayoutType *)

Definition getLayoutType (typ : string) : LayoutType :=
  if String.eqb typ "TABLE" then LayoutTypeTable
  else if String.eqb typ "VIEW" then LayoutTypeView
  else LayoutTypeNone.

(** ** fetchPsqlLayouts *)

Definition redshiftClient : string := "redshift".

(** [row[i].(string)]: panics (None) when the index is out of range or the
    value is not a string. *)
Definition assert_string (r : Row) (i : nat) : option string :=
  match r !! i with
  | Some (VString s) => Some s
  | _ => None
  end.

(** The [children] map of the source: [map[string][]models.Layout]. *)
Abbreviation childMap := (gmap string (list Layout)).

(** [children[schema] = append(children[schema], l)]: a missing key
    reads as the nil slice. *)
Definition append_child (children : childMap) (schema : string) (l : Layout)
  : childMap :=
  <[schema := (default [] (children !! schema) ++ [l])%list]> children.

(** One result of [rows.Next()]: [(row, err)], where [None] for the row is
    the nil row. *)
Definition next_result := (option Row * option error)%type.

(** The stream seen by [fetchPsqlLayouts]: the results of its successive
    [Next] calls; once the list is used up, [Next] returns [(nil, nil)]. *)
Definition stream := list next_result.

(** The body of the [for] loop for one row (lines 119-135). *)
Definition handle_row (dbType : string) (children : childMap) (row : Row)
  : option childMap :=
  match assert_string row 0, assert_string row 1 with
  | Some schema, Some table =>
      if String.eqb dbType redshiftClient then
        match assert_string row 2 with
        | Some typ =>
            Some (append_child children schema
                    (mkLayout table schema dbType (getLayoutType typ) []))
        | None => None
        end
      else
        Some (append_child children schema
                (mkLayout table schema dbType LayoutTypeTable []))
  | _, _ => None
  end.

(** The [for] loop (lines 109-136): returns the accumulated map. *)
Fixpoint fetch_loop (dbType : string) (children : childMap) (s : stream)
  : outcome childMap :=
  match s with
  | [] => Ok children
  | (row, err) :: rest =>
      match row with
      | None => Ok children
      | Some r =>
          match err with
          | Some e => Err e
          | None =>
              match handle_row dbType children r with
              | Some children' => fetch_loop dbType children' rest
              | None => Panic
              end
          end
      end
  end.

(** The group node built for one map entry (lines 141-147). *)
Definition group_node (dbType : string) (kv : string * list Layout) : Layout :=
  mkLayout kv.1 kv.1 dbType LayoutTypeNone kv.2.

(** [for k, v := range children]: Go visits the map entries in an
    unspecified order; [order] is the order actually visited, any
    permutation of the entries. *)
Definition range_groups (dbType : string) (order : list (string * list Layout))
  : list Layout :=
  map (group_node dbType) order.

(** [fetchPsqlLayouts] as a relation: the outcomes the Go function can
    return on a stream, one per admissible map iteration order. *)
Definition fetchPsqlLayouts (s : stream) (dbType : string)
  (res : outcome (list Layout)) : Prop :=
  match fetch_loop dbType ∅ s with
  | Ok children =>
      exists order, order ≡ₚ map_to_list children /\
                    res = Ok (range_groups dbType order)
  | Err e => res = Err e
  | Panic => res = Panic
  end.

(** One concrete run: the entries visited in [map_to_list] order. *)
Definition fetchPsqlLayouts_run (s : stream) (dbType : string)
  : outcome (list Layout) :=
  match fetch_loop dbType ∅ s with
  | Ok children => Ok (range_groups dbType (map_to_list children))
  | Err e => Err e
  | Panic => Panic
  end.

(** ** RedshiftClient.Query *)

(** The world seen by the client: the next connection handle the driver
    hands out and the log of acquire / release events on connections. *)
Inductive conn_event :=
  | Acquire (c : nat)
  | Release (c : nat).

Record World := mkWorld {
  next_conn : nat;
  conn_log : list conn_event
}.

(** [models.IterResult] as returned by the driver: the connection it reads
    from and its release callback ([nil] until [SetCallback]). *)
Record IterResult := mkIterResult {
  it_conn : nat;
  it_callback : option (World -> World)
}.

(** [con.Close()]. *)
Definition conn_close (c : nat) (w : World) : World :=
  mkWorld (next_conn w) (conn_log w ++ [Release c]).

(** [c.c.Conn()]: the driver either fails with [e] (nothing acquired) or
    hands out a fresh connection. *)
Definition Conn (fail : option error) (w : World)
  : (option nat * option error) * World :=
  match fail with
  | Some e => ((None, Some e), w)
  | None =>
      let c := next_conn w in
      ((Some c, None), mkWorld (S c) (conn_log w ++ [Acquire c]))
  end.

(** [con.Query(query)]: the driver either rejects the statement with [e]
    or returns an iterator over [con] with no callback. *)
Definition conn_Query (c : nat) (fail : option error) (w : World)
  : (option IterResult * option error) * World :=
  match fail with
  | Some e => ((None, Some e), w)
  | None => ((Some (mkIterResult c None), None), w)
  end.

(** [rows.SetCallback(cb)]. *)
Definition SetCallback (it : IterResult) (cb : World -> World) : IterResult :=
  mkIterResult (it_conn it) (Some cb).

(** [RedshiftClient.Query] (lines 49-69). [connFail] and [queryFail] are the
    driver's answers to [Conn()] and [con.Query(query)]. The deferred
    closure reads the variable [err] after the body has returned. *)
Definition Query (connFail queryFail : option error) (w : World)
  : outcome IterResult * World :=
  match Conn connFail w with
  | ((_, Some e), w1) => (Err e, w1)
  | ((None, None), w1) => (Panic, w1)
  | ((Some con, None), w1) =>
      let cb := conn_close con in
      let '((rows, err), w2) := conn_Query con queryFail w1 in
      (* body of the function, up to its return statement *)
      let ret :=
        match err, rows with
        | Some e, _ => Err e
        | None, Some r => Ok (SetCallback r cb)
        | None, None => Panic
        end in
      (* defer func() { if err != nil { cb() } }() *)
      let w3 := match err with Some _ => cb w2 | None => w2 end in
      (ret, w3)
  end.

(** ** RedshiftClient.Layout *)

(** [RedshiftClient.Layout] (lines 80-103): runs the metadata query through
    [Query] and passes the iterator to [fetchPsqlLayouts] with the dialect
    [redshiftClient]. [s] is what the iterator's [Next] calls return. The
    release the iterator performs when it is drained belongs to the
    driver wrapper, outside this file, so only the outcome is described. *)
Definition RedshiftClient_Layout (connFail queryFail : option error) (s : stream)
  (w : World) (res : outcome (list Layout)) : Prop :=
  match Query connFail queryFail w with
  | (Err e, _) => res = Err e
  | (Panic, _) => res = Panic
  | (Ok _, _) => fetchPsqlLayouts s redshiftClient res
  end.

(** ** Analysis definitions *)

(** The schema key and leaf node that the loop body builds from one row,
    when the type assertions of lines 119-121 succeed. *)
Definition row_leaf (dbType : string) (r : Row) : option (string * Layout) :=
  match assert_string r 0, assert_string r 1 with
  | Some schema, Some table =>
      if String.eqb dbType redshiftClient then
        match assert_string r 2 with
        | Some typ =>
            Some (schema, mkLayout table schema dbType (getLayoutType typ) [])
        | None => None
        end
      else Some (schema, mkLayout table schema dbType LayoutTypeTable [])
  | _, _ => None
  end.

(** A row the loop body accepts without panicking. *)
Definition row_wf (dbType : string) (r : Row) : bool :=
  bool_decide (is_Some (row_leaf dbType r)).

(** A stream that yields the rows [rs] with no error and then ends. *)
Definition ok_stream (rs : list Row) : stream :=
  map (fun r => (Some r, None)) rs.

(** Appending a sequence of (schema, leaf) pairs to the map, in order. *)
Definition accumulate (kls : list (string * Layout)) (m : childMap) : childMap :=
  foldl (fun acc kl => append_child acc kl.1 kl.2) m kls.

(** The leaves of the pairs [kls] whose schema key is [k], in order. *)
Definition leaves_of_key (k : string) (kls : list (string * Layout)) : list Layout :=
  (filter (fun kl => kl.1 = k) kls).*2.

(** The leaves built from the rows [rs] whose schema column is [k], in the
    order the rows are read. *)
Definition leaves_for (dbType k : string) (rs : list Row) : list Layout :=
  omap (fun r =>
          match row_leaf dbType r with
          | Some (k', l) => if String.eqb k' k then Some l else None
          | None => None
          end) rs.

(** Number of leaf nodes below the group nodes of a layout list. *)
Definition leaf_count (out : list Layout) : nat :=
  sum_list_with (fun g => length (Children g)) out.

(** Sample streams. *)
Definition rows_typed : list Row :=
  [[VString "public"; VString "t1"; VString "TABLE"];
   [VString "public"; VString "t2"; VString "VIEW"];
   [VString "audit"; VString "t3"; VString "TABLE"]].

Definition rows_untyped : list Row :=
  [[VString "public"; VString "t1"];
   [VString "public"; VString "t2"]].

Definition rows_padded : list Row :=
  [[VString " public "; VString "t1"; VString "TABLE"]].

Definition rows_bad_schema : list Row :=
  [[VInt 1; VString "t1"; VString "TABLE"]].

(** Expected output on [rows_typed], in one admissible iteration order. *)
Definition layout_typed : list Layout :=
  [mkLayout "audit" "audit" "redshift" LayoutTypeNone
     [mkLayout "t3" "audit" "redshift" LayoutTypeTable []];
   mkLayout "public" "public" "redshift" LayoutTypeNone
     [mkLayout "t1" "public" "redshift" LayoutTypeTable [];
      mkLayout "t2" "public" "redshift" LayoutTypeView []]].

(** The number of columns the loop body reads from a row: the schema and
    name columns, and the type column for Redshift. *)
Definition row_width (dbType : string) : nat :=
  if String.eqb dbType redshiftClient then 3 else 2.

(** Every row of a stream cut down to its first [n] columns (a nil row
    stays nil). *)
Definition truncate_stream (n : nat) (s : stream) : stream :=
  map (fun rr => (take n <$> rr.1, rr.2)) s.

(** The raw schema column values of the rows, in order. *)
Definition schema_values (rs : list Row) : list string :=
  omap (fun r => assert_string r 0) rs.

(** Column [i] of a row as a string ([""] when it is not one). *)
Definition col (r : Row) (i : nat) : string := default "" (assert_string r i).

(** The leaves expected under schema [k] for the Redshift dialect, from
    the rows [rs] in read order: one per row whose schema column is [k],
    named after that row's name column and classified by [getLayoutType]
    of that row's type column. *)
Definition redshift_leaves (k : string) (rs : list Row) : list Layout :=
  map (fun r => mkLayout (col r 1) k redshiftClient (getLayoutType (col r 2)) [])
      (filter (fun r => assert_string r 0 = Some k) rs).

(** ** The loop body and the accumulation *)

Lemma handle_row_leaf (dbType : string) (m : childMap) (r : Row) :
  handle_row dbType m r =
    (fun kl => append_child m kl.1 kl.2) <$> row_leaf dbType r.
Proof.
  unfold handle_row, row_leaf.
  destruct (assert_string r 0), (assert_string r 1); try reflexivity.
  destruct (String.eqb dbType redshiftClient); [|reflexivity].
  destruct (assert_string r 2); reflexivity.
Qed.

Lemma row_leaf_key (dbType : string) (r : Row) (k : string) (l : Layout) :
  row_leaf dbType r = Some (k, l) ->
  assert_string r 0 = Some k /\ Schema l = k /\ Database l = dbType /\
  assert_string r 1 = Some (Name l) /\ Children l = [].
Proof.
  unfold row_leaf.
  destruct (assert_string r 0) as [s|], (assert_string r 1) as [t|];
    try discriminate.
  destruct (String.eqb dbType redshiftClient);
    [destruct (assert_string r 2); [|discriminate]|];
    intros H; inversion H; subst; auto.
Qed.

Lemma fetch_loop_ok_stream (dbType : string) (rs : list Row) (m : childMap) :
  fetch_loop dbType m (ok_stream rs) =
    match mapM (row_leaf dbType) rs with
    | Some kls => Ok (accumulate kls m)
    | None => Panic
    end.
Proof.
  revert m. induction rs as [|r rs IH]; intros m; [reflexivity|].
  simpl. rewrite handle_row_leaf.
  destruct (row_leaf dbType r) as [kl|]; simpl; [|reflexivity].
  rewrite IH. destruct (mapM (row_leaf dbType) rs); reflexivity.
Qed.

Lemma fetch_loop_Ok_inv (dbType : string) (s : stream) (m m' : childMap) :
  fetch_loop dbType m s = Ok m' ->
  exists kls, m' = accumulate kls m /\
    Forall (fun kl => exists r, (Some r, None) ∈ s /\ row_leaf dbType r = Some kl) kls.
Proof.
  revert m. induction s as [|[[r|] [e|]] s IH]; intros m; simpl;
    try discriminate.
  - intros H. inversion H. exists []. auto.
  - rewrite handle_row_leaf.
    destruct (row_leaf dbType r) as [kl|] eqn:Hr; simpl; [|discriminate].
    intros H. destruct (IH _ H) as (kls & -> & Hall).
    exists (kl :: kls). split; [reflexivity|].
    constructor.
    + exists r. split; [left|]; auto.
    + eapply Forall_impl; [exact Hall|].
      intros kl' (r' & Hin & Hr'). exists r'. split; [right|]; auto.
  - intros H. inversion H. exists []. auto.
  - intros H. inversion H. exists []. auto.
Qed.

Lemma accumulate_lookup (kls : list (string * Layout)) (m : childMap) (k : string) :
  default [] (accumulate kls m !! k) = default [] (m !! k) ++ leaves_of_key k kls /\
  (is_Some (accumulate kls m !! k) <-> is_Some (m !! k) \/ k ∈ kls.*1).
Proof.
  revert m. induction kls as [|[k' l] kls IH]; intros m; simpl.
  - unfold leaves_of_key. simpl. rewrite app_nil_r.
    split; [reflexivity|]. split; [auto|]. intros [H|H]; [exact H|inversion H].
  - destruct (IH (append_child m k' l)) as [H1 H2].
    unfold accumulate in *. simpl. rewrite H1, H2.
    unfold append_child, leaves_of_key. rewrite filter_cons. simpl.
    destruct (decide (k' = k)) as [->|Hne].
    + rewrite lookup_insert_eq. simpl. rewrite <- app_assoc.
      split; [reflexivity|]. split; [intros _; right; left|intros _; left]; done.
    + rewrite lookup_insert_ne by done. split; [reflexivity|].
      rewrite elem_of_cons. split.
      * intros [H|H]; auto.
      * intros [H|[H|H]]; auto. congruence.
Qed.

Lemma accumulate_empty_lookup (kls : list (string * Layout)) (k : string) :
  accumulate kls ∅ !! k =
    if decide (k ∈ kls.*1) then Some (leaves_of_key k kls) else None.
Proof.
  destruct (accumulate_lookup kls ∅ k) as [H1 H2].
  rewrite lookup_empty in H1, H2. simpl in H1.
  case_decide as Hk.
  - destruct (accumulate kls ∅ !! k) eqn:E.
    + simpl in H1. by rewrite H1.
    + exfalso. destruct (proj2 H2 (or_intror Hk)). discriminate.
  - destruct (accumulate kls ∅ !! k) eqn:E; [|reflexivity].
    exfalso. destruct (proj1 H2 (mk_is_Some _ _ eq_refl)) as [[? H]|H]; [discriminate|].
    contradiction.
Qed.

(** ** The emitted group nodes *)

Lemma fetchPsqlLayouts_Ok_inv (s : stream) (dbType : string) (out : list Layout) :
  fetchPsqlLayouts s dbType (Ok out) ->
  exists children order,
    fetch_loop dbType ∅ s = Ok children /\
    order ≡ₚ map_to_list children /\ out = range_groups dbType order.
Proof.
  unfold fetchPsqlLayouts.
  destruct (fetch_loop dbType ∅ s) as [children|e|]; try discriminate.
  intros (order & Hp & Heq). inversion Heq. eauto.
Qed.

Lemma fetchPsqlLayouts_run_sound (s : stream) (dbType : string) :
  fetchPsqlLayouts s dbType (fetchPsqlLayouts_run s dbType).
Proof.
  unfold fetchPsqlLayouts, fetchPsqlLayouts_run.
  destruct (fetch_loop dbType ∅ s); eauto.
Qed.

Lemma range_groups_names (dbType : string) (order : list (string * list Layout)) :
  map Name (range_groups dbType order) = order.*1.
Proof. unfold range_groups. rewrite map_map. reflexivity. Qed.

Lemma elem_of_range_groups (dbType : string) (order : list (string * list Layout))
    (g : Layout) :
  g ∈ range_groups dbType order <->
  exists k v, (k, v) ∈ order /\ g = mkLayout k k dbType LayoutTypeNone v.
Proof.
  unfold range_groups. rewrite list_elem_of_fmap. split.
  - intros ([k v] & -> & Hin). eauto.
  - intros (k & v & Hin & ->). exists (k, v). auto.
Qed.

(** The group nodes of an admissible output: one per map entry. *)
Lemma range_groups_entries (dbType : string) (children : childMap)
    (order : list (string * list Layout)) :
  order ≡ₚ map_to_list children ->
  NoDup (map Name (range_groups dbType order)) /\
  (forall g, g ∈ range_groups dbType order <->
     exists k v, children !! k = Some v /\ g = mkLayout k k dbType LayoutTypeNone v).
Proof.
  intros Hp. split.
  - rewrite range_groups_names, Hp. apply NoDup_fst_map_to_list.
  - intros g. rewrite elem_of_range_groups.
    setoid_rewrite Hp. setoid_rewrite elem_of_map_to_list. reflexivity.
Qed.

(** Leaves of the map, summed over its entries. *)
Lemma map_leaf_total_append (m : childMap) (k : string) (l : Layout) :
  sum_list_with (fun kv => length kv.2) (map_to_list (append_child m k l)) =
  S (sum_list_with (fun kv => length kv.2) (map_to_list m)).
Proof.
  unfold append_child.
  destruct (m !! k) as [old|] eqn:E; simpl.
  - rewrite <- insert_delete_eq.
    rewrite map_to_list_insert by apply lookup_delete_eq.
    rewrite <- (map_to_list_delete m k old E). simpl.
    rewrite length_app. simpl. lia.
  - rewrite map_to_list_insert by exact E. simpl. lia.
Qed.

Lemma map_leaf_total_accumulate (kls : list (string * Layout)) (m : childMap) :
  sum_list_with (fun kv => length kv.2) (map_to_list (accumulate kls m)) =
  length kls + sum_list_with (fun kv => length kv.2) (map_to_list m).
Proof.
  revert m. induction kls as [|[k l] kls IH]; intros m; [reflexivity|].
  unfold accumulate in *. simpl. rewrite IH, map_leaf_total_append. lia.
Qed.

Lemma leaf_count_range_groups (dbType : string) (order : list (string * list Layout)) :
  leaf_count (range_groups dbType order) =
  sum_list_with (fun kv => length kv.2) order.
Proof.
  induction order as [|[k v] order IH]; [reflexivity|].
  simpl. unfold leaf_count in *. simpl. rewrite IH. reflexivity.
Qed.

(** ** Well-formed row sequences *)

Lemma mapM_row_leaf_wf (dbType : string) (rs : list Row) :
  Forall (fun r => row_wf dbType r = true) rs ->
  exists kls, mapM (row_leaf dbType) rs = Some kls.
Proof.
  induction 1 as [|r rs Hr _ [kls IH]]; [eauto|].
  unfold row_wf in Hr. apply bool_decide_eq_true in Hr as [kl Hkl].
  exists (kl :: kls). simpl. rewrite Hkl, IH. reflexivity.
Qed.

Lemma mapM_row_leaf_keys (dbType : string) (rs : list Row)
    (kls : list (string * Layout)) (k : string) :
  mapM (row_leaf dbType) rs = Some kls ->
  leaves_of_key k kls = leaves_for dbType k rs /\
  (k ∈ kls.*1 <-> exists r, r ∈ rs /\ assert_string r 0 = Some k).
Proof.
  intros H. apply mapM_Some_1 in H.
  induction H as [|r [k' l] rs kls Hr _ [IH1 IH2]].
  - split; [reflexivity|]. split; [intros Hin; inversion Hin|].
    intros (r & Hin & _). inversion Hin.
  - destruct (row_leaf_key _ _ _ _ Hr) as (H0 & _).
    unfold leaves_of_key, leaves_for in *. rewrite filter_cons. simpl.
    rewrite Hr. split.
    + destruct (decide (k' = k)) as [->|Hne].
      * rewrite String.eqb_refl. simpl. f_equal. exact IH1.
      * apply String.eqb_neq in Hne. rewrite Hne. exact IH1.
    + simpl. rewrite elem_of_cons, IH2. split.
      * intros [->|(r' & Hin & Hr')]; [exists r; split; [left|]; done|].
        exists r'. split; [right|]; done.
      * intros (r' & Hin & Hr'). apply elem_of_cons in Hin as [->|Hin].
        -- left. congruence.
        -- right. eauto.
Qed.

(** An admissible output on a well-formed stream, described by the map
    the loop builds. *)
Lemma fetchPsqlLayouts_ok_stream_inv (dbType : string) (rs : list Row)
    (out : list Layout) :
  fetchPsqlLayouts (ok_stream rs) dbType (Ok out) ->
  exists kls order,
    mapM (row_leaf dbType) rs = Some kls /\
    order ≡ₚ map_to_list (accumulate kls ∅) /\ out = range_groups dbType order.
Proof.
  intros H. destruct (fetchPsqlLayouts_Ok_inv _ _ _ H)
    as (children & order & Hl & Hp & ->).
  rewrite fetch_loop_ok_stream in Hl.
  destruct (mapM (row_leaf dbType) rs) as [kls|]; [|discriminate].
  inversion Hl; subst. eauto.
Qed.

Example fetchPsqlLayouts_run_typed :
  fetchPsqlLayouts_run (ok_stream rows_typed) "redshift" = Ok layout_typed.
Proof. vm_compute. reflexivity. Qed.

(** ** Where the nodes of an output come from *)

Lemma leaves_of_key_elem (k : string) (kls : list (string * Layout)) (c : Layout) :
  c ∈ leaves_of_key k kls <-> (k, c) ∈ kls.
Proof.
  unfold leaves_of_key. rewrite list_elem_of_fmap. split.
  - intros ([k' c'] & -> & Hin). apply list_elem_of_filter in Hin as [Hk Hin].
    simpl in *. subst. exact Hin.
  - intros Hin. exists (k, c). split; [reflexivity|].
    apply list_elem_of_filter. auto.
Qed.

(** Every leaf of an output was built by the loop body from a row of the
    stream, and sits in the group of that row's schema. *)
Lemma fetchPsqlLayouts_leaf_origin (s : stream) (dbType : string)
    (out : list Layout) (g c : Layout) :
  fetchPsqlLayouts s dbType (Ok out) ->
  g ∈ out -> c ∈ Children g ->
  exists r, (Some r, None) ∈ s /\ row_leaf dbType r = Some (Name g, c).
Proof.
  intros H Hg Hc.
  destruct (fetchPsqlLayouts_Ok_inv _ _ _ H) as (children & order & Hl & Hp & ->).
  destruct (fetch_loop_Ok_inv _ _ _ _ Hl) as (kls & -> & Hall).
  apply (proj2 (range_groups_entries dbType _ _ Hp)) in Hg as (k & v & Hk & ->).
  simpl in *. rewrite accumulate_empty_lookup in Hk.
  case_decide; [|discriminate]. inversion Hk; subst.
  apply leaves_of_key_elem in Hc.
  rewrite Forall_forall in Hall. exact (Hall _ Hc).
Qed.

Lemma fetchPsqlLayouts_group_shape (s : stream) (dbType : string)
    (out : list Layout) (g : Layout) :
  fetchPsqlLayouts s dbType (Ok out) -> g ∈ out ->
  Schema g = Name g /\ Database g = dbType /\ Type_ g = LayoutTypeNone.
Proof.
  intros H Hg.
  destruct (fetchPsqlLayouts_Ok_inv _ _ _ H) as (children & order & _ & _ & ->).
  apply elem_of_range_groups in Hg as (k & v & _ & ->). auto.
Qed.

Lemma fetchPsqlLayouts_NoDup (s : stream) (dbType : string) (out : list Layout) :
  fetchPsqlLayouts s dbType (Ok out) -> NoDup (map Name out).
Proof.
  intros H.
  destruct (fetchPsqlLayouts_Ok_inv _ _ _ H) as (children & order & _ & Hp & ->).
  exact (proj1 (range_groups_entries dbType _ _ Hp)).
Qed.

Lemma NoDup_map_eq {A B} (f : A -> B) (l : list A) (x y : A) :
  NoDup (map f l) -> x ∈ l -> y ∈ l -> f x = f y -> x = y.
Proof.
  induction l as [|a l IH]; intros Hnd Hx Hy Hf; [inversion Hx|].
  simpl in Hnd. apply NoDup_cons in Hnd as [Hnin Hnd].
  apply elem_of_cons in Hx as [->|Hx], Hy as [->|Hy]; auto.
  - exfalso. apply Hnin. rewrite Hf. apply list_elem_of_In, in_map, list_elem_of_In, Hy.
  - exfalso. apply Hnin. rewrite <- Hf. apply list_elem_of_In, in_map, list_elem_of_In, Hx.
Qed.

Lemma row_leaf_type (dbType : string) (r : Row) (k : string) (c : Layout) :
  row_leaf dbType r = Some (k, c) ->
  if String.eqb dbType redshiftClient
  then exists t, assert_string r 2 = Some t /\ Type_ c = getLayoutType t
  else Type_ c = LayoutTypeTable.
Proof.
  unfold row_leaf.
  destruct (assert_string r 0), (assert_string r 1); try discriminate.
  destruct (String.eqb dbType redshiftClient).
  - destruct (assert_string r 2) as [t|]; [|discriminate].
    intros H. inversion H. eauto.
  - intros H. inversion H. reflexivity.
Qed.

Lemma fetch_loop_app (dbType : string) (rs : list Row) (s : stream) (m : childMap) :
  fetch_loop dbType m (ok_stream rs ++ s) =
    match mapM (row_leaf dbType) rs with
    | Some kls => fetch_loop dbType (accumulate kls m) s
    | None => Panic
    end.
Proof.
  revert m. induction rs as [|r rs IH]; intros m; [reflexivity|].
  simpl. rewrite handle_row_leaf.
  destruct (row_leaf dbType r) as [kl|]; simpl; [|reflexivity].
  rewrite IH. destruct (mapM (row_leaf dbType) rs); reflexivity.
Qed.

Lemma row_wf_false (dbType : string) (r : Row) :
  assert_string r 0 = None \/ assert_string r 1 = None \/
  (dbType = redshiftClient /\ assert_string r 2 = None) ->
  row_leaf dbType r = None.
Proof.
  unfold row_leaf. intros [H|[H|[-> H]]]; rewrite ?H.
  - reflexivity.
  - destruct (assert_string r 0); reflexivity.
  - destruct (assert_string r 0), (assert_string r 1); reflexivity.
Qed.

(** ** The rows a successful run has read *)

(** A run that ends with a map has read an error-free prefix of the stream,
    all of whose rows are well formed, and then met the end of the stream
    or a nil row. *)
Lemma fetch_loop_Ok_prefix (dbType : string) (s : stream) (m m' : childMap) :
  fetch_loop dbType m s = Ok m' ->
  exists rs rest kls,
    s = ok_stream rs ++ rest /\
    (rest = [] \/ exists e rest', rest = (None, e) :: rest') /\
    mapM (row_leaf dbType) rs = Some kls /\ m' = accumulate kls m.
Proof.
  revert m. induction s as [|[[r|] [e|]] s IH]; intros m; simpl; try discriminate.
  - intros H. inversion H; subst. exists [], [], []. repeat split; auto.
  - rewrite handle_row_leaf.
    destruct (row_leaf dbType r) as [kl|] eqn:Hr; simpl; [|discriminate].
    intros H. destruct (IH _ H) as (rs & rest & kls & -> & Hrest & Hm & ->).
    exists (r :: rs), rest, (kl :: kls). repeat split; auto.
    simpl. rewrite Hr, Hm. reflexivity.
  - intros H. inversion H; subst. exists [], ((None, Some e) :: s), [].
    repeat split; eauto.
  - intros H. inversion H; subst. exists [], ((None, None) :: s), [].
    repeat split; eauto.
Qed.

Lemma row_leaf_redshift (r : Row) (k : string) (l : Layout) :
  row_leaf redshiftClient r = Some (k, l) ->
  assert_string r 0 = Some k /\ is_Some (assert_string r 2) /\
  l = mkLayout (col r 1) k redshiftClient (getLayoutType (col r 2)) [].
Proof.
  unfold row_leaf, col.
  destruct (assert_string r 0) as [s0|], (assert_string r 1) as [s1|];
    try discriminate.
  simpl. destruct (assert_string r 2) as [t|]; [|discriminate].
  intros H. inversion H; subst. eauto.
Qed.

Lemma mapM_row_leaf_redshift (rs : list Row) (kls : list (string * Layout))
    (k : string) :
  mapM (row_leaf redshiftClient) rs = Some kls ->
  Forall (fun r => row_wf redshiftClient r = true) rs /\
  leaves_of_key k kls = redshift_leaves k rs.
Proof.
  intros H. apply mapM_Some_1 in H.
  induction H as [|r [k' l] rs kls Hr _ [IHwf IH]].
  - split; [constructor|reflexivity].
  - destruct (row_leaf_redshift _ _ _ Hr) as (H0 & _ & ->).
    split.
    + constructor; [|exact IHwf].
      unfold row_wf. apply bool_decide_eq_true. rewrite Hr. eauto.
    + unfold leaves_of_key, redshift_leaves in *. rewrite !filter_cons. simpl.
      rewrite H0.
      destruct (decide (k' = k)) as [->|Hne].
      * rewrite decide_True by reflexivity. simpl. f_equal. exact IH.
      * rewrite decide_False by congruence. exact IH.
Qed.

(** * Claims *)

(** ** C1 *)

(** C1: once [Query] has acquired a connection, a failure of the query
    execution releases that connection (the deferred callback runs, so the
    log gets [Release c] right after [Acquire c]) and the error is
    returned; on success the connection stays acquired and the returned
    iterator carries, as its callback, the release of that connection. *)
Theorem Query_releases_on_failure (e : error) (w : World) :
  Query None (Some e) w =
    (Err e, mkWorld (S (next_conn w))
              (conn_log w ++ [Acquire (next_conn w); Release (next_conn w)])) /\
  exists it,
    Query None None w =
      (Ok it, mkWorld (S (next_conn w)) (conn_log w ++ [Acquire (next_conn w)])) /\
    it_conn it = next_conn w /\
    exists cb, it_callback it = Some cb /\
      forall w', cb w' = conn_close (next_conn w) w'.
Proof.
  split.
  - unfold Query, Conn, conn_Query, conn_close. simpl.
    rewrite <- app_assoc. reflexivity.
  - eexists. split; [reflexivity|]. split; [reflexivity|].
    eexists. split; [reflexivity|]. reflexivity.
Qed.

(** ** C5 *)

(** C5: on a stream of well-formed rows without errors, every output of
    [fetchPsqlLayouts] has exactly one group node per distinct schema
    value (the names are pairwise distinct and are exactly the schema
    values read), and each group node is of the untyped kind and has as
    children exactly the leaves built from the rows of its schema, in the
    order the rows were read. *)
Theorem fetchPsqlLayouts_groups (dbType : string) (rs : list Row)
    (out : list Layout) :
  Forall (fun r => row_wf dbType r = true) rs ->
  fetchPsqlLayouts (ok_stream rs) dbType (Ok out) ->
  NoDup (map Name out) /\
  (forall k, k ∈ map Name out <-> exists r, r ∈ rs /\ assert_string r 0 = Some k) /\
  (forall g, g ∈ out ->
     Type_ g = LayoutTypeNone /\ Children g = leaves_for dbType (Name g) rs).
Proof.
  intros _ H.
  destruct (fetchPsqlLayouts_ok_stream_inv _ _ _ H) as (kls & order & Hm & Hp & ->).
  destruct (range_groups_entries dbType _ _ Hp) as [Hnd Hin].
  split; [exact Hnd|]. split.
  - intros k. rewrite <- (proj2 (mapM_row_leaf_keys _ _ _ k Hm)).
    assert (Hmap : k ∈ map Name (range_groups dbType order) <->
                   exists g, k = Name g /\ g ∈ range_groups dbType order)
      by apply list_elem_of_fmap.
    rewrite Hmap. split.
    + intros (g & -> & Hg). apply Hin in Hg as (k' & v & Hk & ->).
      rewrite accumulate_empty_lookup in Hk. simpl.
      case_decide; [exact H0|discriminate].
    + intros Hk. exists (mkLayout k k dbType LayoutTypeNone (leaves_of_key k kls)).
      split; [reflexivity|]. apply Hin. exists k, (leaves_of_key k kls).
      split; [|reflexivity]. rewrite accumulate_empty_lookup.
      case_decide; [reflexivity|contradiction].
  - intros g Hg. apply Hin in Hg as (k & v & Hk & ->). simpl.
    rewrite accumulate_empty_lookup in Hk.
    case_decide; [|discriminate]. inversion Hk; subst.
    split; [reflexivity|]. apply mapM_row_leaf_keys. exact Hm.
Qed.

Lemma fetchPsqlLayouts_groups_witness :
  Forall (fun r => row_wf "redshift" r = true) rows_typed /\
  fetchPsqlLayouts (ok_stream rows_typed) "redshift" (Ok layout_typed) /\
  NoDup (map Name layout_typed).
Proof.
  assert (Hwf : Forall (fun r => row_wf "redshift" r = true) rows_typed)
    by (repeat constructor).
  assert (Hrun : fetchPsqlLayouts (ok_stream rows_typed) "redshift" (Ok layout_typed))
    by (rewrite <- fetchPsqlLayouts_run_typed; apply fetchPsqlLayouts_run_sound).
  split; [exact Hwf|]. split; [exact Hrun|].
  exact (proj1 (fetchPsqlLayouts_groups "redshift" rows_typed layout_typed Hwf Hrun)).
Defined.

(** ** C2 *)

(** C2 (code defect): when [Next] reports a read error together with a nil
    row, the loop breaks on [row == nil] before it looks at [err], so
    [fetchPsqlLayouts] returns an empty layout and no error: the row
    error is swallowed. *)
Theorem row_error_swallowed_on_nil_row :
  fetchPsqlLayouts [(None, Some (RowError "read failed"))] redshiftClient (Ok []) /\
  ~ fetchPsqlLayouts [(None, Some (RowError "read failed"))] redshiftClient
      (Err (RowError "read failed")).
Proof.
  unfold fetchPsqlLayouts. simpl. rewrite map_to_list_empty. split.
  - exists []. split; reflexivity.
  - intros (order & _ & H). discriminate.
Qed.

(** ** C3 *)

(** C3, counterexample: the padded row [(" public ", "t1", "TABLE")]
    is grouped under the untrimmed key [" public "] in every output. *)
Lemma padded_schema_not_trimmed :
  fetchPsqlLayouts (ok_stream rows_padded) redshiftClient
    (Ok [mkLayout " public " " public " "redshift" LayoutTypeNone
           [mkLayout "t1" " public " "redshift" LayoutTypeTable []]]) /\
  ~ (exists out, fetchPsqlLayouts (ok_stream rows_padded) redshiftClient (Ok out) /\
       "public" ∈ map Name out).
Proof.
  split.
  - unfold fetchPsqlLayouts. vm_compute. eexists. split; reflexivity.
  - intros (out & H & Hin). unfold fetchPsqlLayouts in H. vm_compute in H.
    destruct H as (order & Hp & Heq).
    apply Permutation_singleton_r in Hp. subst order. inversion Heq; subst.
    vm_compute in Hin. apply elem_of_cons in Hin as [Hin|Hin]; [discriminate|].
    inversion Hin.
Qed.

(** C3 (as amended): the builder does not trim; every group name, and
    every leaf's name and schema, is the raw value of the corresponding
    column of a row read from the stream. *)
Theorem layout_values_verbatim (s : stream) (dbType : string)
    (out : list Layout) :
  fetchPsqlLayouts s dbType (Ok out) ->
  forall g c, g ∈ out -> c ∈ Children g ->
    exists r, (Some r, None) ∈ s /\
      assert_string r 0 = Some (Name g) /\ Schema c = Name g /\
      assert_string r 1 = Some (Name c).
Proof.
  intros H g c Hg Hc.
  destruct (fetchPsqlLayouts_leaf_origin _ _ _ _ _ H Hg Hc) as (r & Hr & Hl).
  destruct (row_leaf_key _ _ _ _ Hl) as (H0 & Hs & _ & H1 & _).
  eauto.
Qed.

Lemma layout_values_verbatim_witness :
  fetchPsqlLayouts (ok_stream rows_typed) redshiftClient (Ok layout_typed) /\
  exists r, (Some r, None) ∈ ok_stream rows_typed /\
    assert_string r 0 = Some "audit" /\ Schema (mkLayout "t3" "audit" "redshift" LayoutTypeTable []) = "audit" /\
    assert_string r 1 = Some "t3".
Proof.
  assert (Hrun : fetchPsqlLayouts (ok_stream rows_typed) redshiftClient (Ok layout_typed))
    by (rewrite <- fetchPsqlLayouts_run_typed; apply fetchPsqlLayouts_run_sound).
  split; [exact Hrun|].
  exact (layout_values_verbatim _ _ _ Hrun
           (mkLayout "audit" "audit" "redshift" LayoutTypeNone
              [mkLayout "t3" "audit" "redshift" LayoutTypeTable []])
           (mkLayout "t3" "audit" "redshift" LayoutTypeTable [])
           ltac:(left) ltac:(left)).
Defined.

(** ** C4 *)

(** C4, counterexample: a row whose schema column is an integer makes
    [fetchPsqlLayouts] panic (failed type assertion); it returns no
    error value at all. *)
Lemma bad_schema_row_panics :
  fetchPsqlLayouts (ok_stream rows_bad_schema) redshiftClient Panic /\
  (forall e, ~ fetchPsqlLayouts (ok_stream rows_bad_schema) redshiftClient (Err e)).
Proof.
  split.
  - reflexivity.
  - intros e H. vm_compute in H. discriminate.
Qed.

(** C4 (as amended): once the loop reaches a row whose schema or name
    column (or, for Redshift, type column) is absent or not a string,
    [fetchPsqlLayouts] panics; it has no schema-error result. *)
Theorem malformed_row_panics (dbType : string) (rs : list Row) (r : Row)
    (rest : stream) (res : outcome (list Layout)) :
  Forall (fun r => row_wf dbType r = true) rs ->
  assert_string r 0 = None \/ assert_string r 1 = None \/
  (dbType = redshiftClient /\ assert_string r 2 = None) ->
  fetchPsqlLayouts (ok_stream rs ++ (Some r, None) :: rest) dbType res <->
  res = Panic.
Proof.
  intros Hwf Hbad.
  destruct (mapM_row_leaf_wf _ _ Hwf) as [kls Hm].
  unfold fetchPsqlLayouts. rewrite fetch_loop_app, Hm. simpl.
  rewrite handle_row_leaf, (row_wf_false _ _ Hbad). simpl.
  split; intros H; congruence.
Qed.

Lemma malformed_row_panics_witness :
  Forall (fun r => row_wf "postgres" r = true) rows_untyped /\
  (fetchPsqlLayouts (ok_stream rows_untyped ++ [(Some [VString "public"], None)])
     "postgres" Panic <-> @Panic (list Layout) = Panic).
Proof.
  assert (Hwf : Forall (fun r => row_wf "postgres" r = true) rows_untyped)
    by (repeat constructor).
  split; [exact Hwf|].
  apply (malformed_row_panics "postgres" rows_untyped [VString "public"] [] Panic Hwf).
  right. left. reflexivity.
Defined.

(** ** C6 *)

(** C6: [getLayoutType] maps ["TABLE"] to the table kind, ["VIEW"] to the
    view kind and every other string to the untyped kind; for the Redshift
    dialect, a successful run has read the error-free rows [rs] of the
    stream (up to its end or a nil row), and the children of each group
    are, in read order, one leaf per row of that schema whose kind is
    [getLayoutType] of that same row's type column. *)
Theorem redshift_leaf_kind (s : stream) (out : list Layout) :
  fetchPsqlLayouts s redshiftClient (Ok out) ->
  (forall typ,
     (getLayoutType typ = LayoutTypeTable <-> typ = "TABLE") /\
     (getLayoutType typ = LayoutTypeView <-> typ = "VIEW") /\
     (getLayoutType typ = LayoutTypeNone <-> typ <> "TABLE" /\ typ <> "VIEW")) /\
  exists rs rest,
    s = ok_stream rs ++ rest /\
    (rest = [] \/ exists e rest', rest = (None, e) :: rest') /\
    Forall (fun r => row_wf redshiftClient r = true) rs /\
    forall g, g ∈ out -> Children g = redshift_leaves (Name g) rs.
Proof.
  intros H. split.
  - intros typ. unfold getLayoutType.
    destruct (String.eqb_spec typ "TABLE") as [->|Ht];
      [|destruct (String.eqb_spec typ "VIEW") as [->|Hv]].
    + repeat split; try discriminate; try reflexivity.
      intros [Hn _]. contradiction.
    + repeat split; try discriminate; try reflexivity.
      intros [_ Hn]. contradiction.
    + repeat split; try discriminate; auto; intros; contradiction.
  - destruct (fetchPsqlLayouts_Ok_inv _ _ _ H) as (children & order & Hl & Hp & ->).
    destruct (fetch_loop_Ok_prefix _ _ _ _ Hl) as (rs & rest & kls & Hs & Hrest & Hm & ->).
    exists rs, rest. split; [exact Hs|]. split; [exact Hrest|].
    split; [exact (proj1 (mapM_row_leaf_redshift _ _ "" Hm))|].
    intros g Hg.
    apply (proj2 (range_groups_entries _ _ _ Hp)) in Hg as (k & v & Hk & ->).
    simpl. rewrite accumulate_empty_lookup in Hk.
    case_decide; [|discriminate]. inversion Hk; subst v.
    exact (proj2 (mapM_row_leaf_redshift _ _ k Hm)).
Qed.

Lemma redshift_leaf_kind_witness :
  fetchPsqlLayouts (ok_stream rows_typed) redshiftClient (Ok layout_typed) /\
  getLayoutType "VIEW" = LayoutTypeView.
Proof.
  assert (Hrun : fetchPsqlLayouts (ok_stream rows_typed) redshiftClient (Ok layout_typed))
    by (rewrite <- fetchPsqlLayouts_run_typed; apply fetchPsqlLayouts_run_sound).
  split; [exact Hrun|].
  apply (proj1 (proj2 (proj1 (redshift_leaf_kind _ _ Hrun) "VIEW"))).
  reflexivity.
Defined.

(** ** C7 *)

(** C7: for every dialect other than Redshift, every leaf of every output
    has the table kind, whatever the rows contain. *)
Theorem untyped_dialect_leaves_table (s : stream) (dbType : string)
    (out : list Layout) :
  dbType <> redshiftClient ->
  fetchPsqlLayouts s dbType (Ok out) ->
  forall g c, g ∈ out -> c ∈ Children g -> Type_ c = LayoutTypeTable.
Proof.
  intros Hd H g c Hg Hc.
  destruct (fetchPsqlLayouts_leaf_origin _ _ _ _ _ H Hg Hc) as (r & _ & Hl).
  pose proof (row_leaf_type _ _ _ _ Hl) as Ht.
  apply String.eqb_neq in Hd. rewrite Hd in Ht. exact Ht.
Qed.

Lemma untyped_dialect_leaves_table_witness :
  "postgres" <> redshiftClient /\
  fetchPsqlLayouts (ok_stream rows_untyped) "postgres"
    (Ok [mkLayout "public" "public" "postgres" LayoutTypeNone
           [mkLayout "t1" "public" "postgres" LayoutTypeTable [];
            mkLayout "t2" "public" "postgres" LayoutTypeTable []]]) /\
  Type_ (mkLayout "t2" "public" "postgres" LayoutTypeTable []) = LayoutTypeTable.
Proof.
  assert (Hd : "postgres" <> redshiftClient) by discriminate.
  assert (Hrun : fetchPsqlLayouts (ok_stream rows_untyped) "postgres"
    (Ok [mkLayout "public" "public" "postgres" LayoutTypeNone
           [mkLayout "t1" "public" "postgres" LayoutTypeTable [];
            mkLayout "t2" "public" "postgres" LayoutTypeTable []]]))
    by (unfold fetchPsqlLayouts; vm_compute; eexists; split; reflexivity).
  split; [exact Hd|]. split; [exact Hrun|].
  apply (untyped_dialect_leaves_table _ _ _ Hd Hrun
           (mkLayout "public" "public" "postgres" LayoutTypeNone
              [mkLayout "t1" "public" "postgres" LayoutTypeTable [];
               mkLayout "t2" "public" "postgres" LayoutTypeTable []])).
  - left.
  - right. left.
Defined.

(** ** C8 *)

(** C8, counterexample: the group nodes are not free of a parent-schema
    field; the source sets [Schema: k], so on [rows_typed] the group
    ["audit"] carries the schema ["audit"]. *)
Lemma group_node_carries_schema :
  ~ (forall out, fetchPsqlLayouts (ok_stream rows_typed) redshiftClient (Ok out) ->
       forall g, g ∈ out -> Schema g = "").
Proof.
  intros H.
  assert (Hrun : fetchPsqlLayouts (ok_stream rows_typed) redshiftClient (Ok layout_typed))
    by (rewrite <- fetchPsqlLayouts_run_typed; apply fetchPsqlLayouts_run_sound).
  specialize (H _ Hrun _ ltac:(left)). discriminate.
Qed.

(** C8 (as amended): in every output, each leaf's [Schema] is the name of
    its group and of no other group (group names are pairwise distinct),
    leaves have no children, and each group node's [Schema] field is its
    own name. *)
Theorem leaf_schema_matches_one_group (s : stream) (dbType : string)
    (out : list Layout) :
  fetchPsqlLayouts s dbType (Ok out) ->
  (forall g, g ∈ out -> Schema g = Name g) /\
  (forall g c, g ∈ out -> c ∈ Children g ->
     Schema c = Name g /\ Children c = [] /\
     (forall g', g' ∈ out -> Name g' = Schema c -> g' = g)).
Proof.
  intros H. split.
  - intros g Hg. exact (proj1 (fetchPsqlLayouts_group_shape _ _ _ _ H Hg)).
  - intros g c Hg Hc.
    destruct (fetchPsqlLayouts_leaf_origin _ _ _ _ _ H Hg Hc) as (r & _ & Hl).
    destruct (row_leaf_key _ _ _ _ Hl) as (_ & Hs & _ & _ & Hch).
    split; [exact Hs|]. split; [exact Hch|].
    intros g' Hg' Hn. rewrite Hs in Hn.
    exact (NoDup_map_eq Name out g' g (fetchPsqlLayouts_NoDup _ _ _ H) Hg' Hg Hn).
Qed.

Lemma leaf_schema_matches_one_group_witness :
  fetchPsqlLayouts (ok_stream rows_typed) redshiftClient (Ok layout_typed) /\
  Schema (mkLayout "public" "public" "redshift" LayoutTypeNone
            [mkLayout "t1" "public" "redshift" LayoutTypeTable [];
             mkLayout "t2" "public" "redshift" LayoutTypeView []]) = "public".
Proof.
  assert (Hrun : fetchPsqlLayouts (ok_stream rows_typed) redshiftClient (Ok layout_typed))
    by (rewrite <- fetchPsqlLayouts_run_typed; apply fetchPsqlLayouts_run_sound).
  split; [exact Hrun|].
  apply (proj1 (leaf_schema_matches_one_group _ _ _ Hrun)).
  right. left.
Defined.

(** ** C9 *)

(** C9: when the first [Next] signals exhaustion (the stream is empty, or
    its first result is a nil row with no error), the only outcome is an
    empty layout list and no error. *)
Theorem empty_stream_empty_layout (dbType : string) (rest : stream)
    (res : outcome (list Layout)) :
  (fetchPsqlLayouts [] dbType res <-> res = Ok []) /\
  (fetchPsqlLayouts ((None, None) :: rest) dbType res <-> res = Ok []).
Proof.
  unfold fetchPsqlLayouts. simpl. rewrite map_to_list_empty.
  assert (Hiff : (exists order, order ≡ₚ [] /\ res = Ok (range_groups dbType order))
                 <-> res = Ok []).
  { split.
    - intros (order & Hp & ->). symmetry in Hp. apply Permutation_nil in Hp. subst. reflexivity.
    - intros ->. exists []. split; reflexivity. }
  split; exact Hiff.
Qed.

(** ** C10 *)



(** * Further properties of redshift.go *)

(** ** Helpers *)

Lemma fetch_loop_nil_row (dbType : string) (s rest : stream) (err : option error)
    (m : childMap) :
  fetch_loop dbType m (s ++ (None, err) :: rest) = fetch_loop dbType m s.
Proof.
  revert m. induction s as [|[[r|] [e|]] s IH]; intros m; simpl; try reflexivity.
  destruct (handle_row dbType m r); [apply IH|reflexivity].
Qed.

Lemma ok_stream_app (rs1 rs2 : list Row) :
  ok_stream (rs1 ++ rs2) = ok_stream rs1 ++ ok_stream rs2.
Proof. apply map_app. Qed.

Lemma fetch_ok_stream_leaf_count (dbType : string) (rs : list Row)
    (out : list Layout) :
  fetchPsqlLayouts (ok_stream rs) dbType (Ok out) -> leaf_count out = length rs.
Proof.
  intros H.
  destruct (fetchPsqlLayouts_ok_stream_inv _ _ _ H) as (kls & order & Hm & Hp & ->).
  rewrite leaf_count_range_groups, Hp, map_leaf_total_accumulate.
  rewrite map_to_list_empty. simpl.
  apply mapM_Some_1, Forall2_length in Hm. lia.
Qed.

Lemma fetch_ok_stream_run_ok (dbType : string) (rs : list Row) :
  Forall (fun r => row_wf dbType r = true) rs ->
  exists out, fetchPsqlLayouts_run (ok_stream rs) dbType = Ok out.
Proof.
  intros Hwf. destruct (mapM_row_leaf_wf _ _ Hwf) as [kls Hm].
  unfold fetchPsqlLayouts_run. rewrite fetch_loop_ok_stream, Hm. eauto.
Qed.

(** ** Query *)

(** X1: [Query] never panics and keeps the connections balanced: when it
    returns an error, every connection it acquired (none, or one) has been
    released again; when it succeeds, it has acquired exactly one
    connection, left it open, and that is the iterator's connection. *)
Theorem Query_connection_balance (connFail queryFail : option error) (w : World) :
  exists ev,
    conn_log (Query connFail queryFail w).2 = conn_log w ++ ev /\
    match (Query connFail queryFail w).1 with
    | Ok it => ev = [Acquire (it_conn it)]
    | Err _ => ev = [] \/ exists c, ev = [Acquire c; Release c]
    | Panic => False
    end.
Proof.
  destruct connFail as [e|], queryFail as [e'|]; simpl.
  - exists []. rewrite app_nil_r. auto.
  - exists []. rewrite app_nil_r. auto.
  - eexists. rewrite <- app_assoc. split; [reflexivity|]. right. eauto.
  - eexists. split; reflexivity.
Qed.

(** ** fetchPsqlLayouts: errors and the end of the stream *)

(** X2: when [Next] returns a non-nil row together with an error, after
    any number of well-formed rows, [fetchPsqlLayouts] returns exactly that
    error and no layout: the partial layout is dropped, and the error is
    checked before the row's columns are read. *)
Theorem fetch_row_error_propagated (dbType : string) (rs : list Row) (r : Row)
    (e : error) (rest : stream) (res : outcome (list Layout)) :
  Forall (fun r => row_wf dbType r = true) rs ->
  fetchPsqlLayouts (ok_stream rs ++ (Some r, Some e) :: rest) dbType res <->
  res = Err e.
Proof.
  intros Hwf. destruct (mapM_row_leaf_wf _ _ Hwf) as [kls Hm].
  unfold fetchPsqlLayouts. rewrite fetch_loop_app, Hm. simpl.
  split; intros H; congruence.
Qed.

Lemma fetch_row_error_propagated_witness :
  Forall (fun r => row_wf "redshift" r = true) rows_typed /\
  (fetchPsqlLayouts (ok_stream rows_typed ++ [(Some [VNil], Some (RowError "scan"))])
     "redshift" (Err (RowError "scan")) <-> @Err (list Layout) (RowError "scan") = Err (RowError "scan")).
Proof.
  assert (Hwf : Forall (fun r => row_wf "redshift" r = true) rows_typed)
    by (repeat constructor).
  split; [exact Hwf|].
  apply (fetch_row_error_propagated "redshift" rows_typed [VNil] (RowError "scan") [] _ Hwf).
Defined.

(** X3: the first nil row ends the read: that result's error (if any)
    and everything the stream would yield afterwards are ignored, and the
    outcomes are those of the stream cut just before the nil row. *)
Theorem fetch_stops_at_nil_row (s rest : stream) (err : option error)
    (dbType : string) (res : outcome (list Layout)) :
  fetchPsqlLayouts (s ++ (None, err) :: rest) dbType res <->
  fetchPsqlLayouts s dbType res.
Proof. unfold fetchPsqlLayouts. rewrite fetch_loop_nil_row. reflexivity. Qed.

(** ** fetchPsqlLayouts: shape of the output *)

(** X5: no group node is empty: a group exists only because some row of
    its schema was read, so it has at least one child. *)
Theorem fetch_groups_nonempty (s : stream) (dbType : string) (out : list Layout)
    (g : Layout) :
  fetchPsqlLayouts s dbType (Ok out) -> g ∈ out -> Children g <> [].
Proof.
  intros H Hg.
  destruct (fetchPsqlLayouts_Ok_inv _ _ _ H) as (children & order & Hl & Hp & ->).
  destruct (fetch_loop_Ok_inv _ _ _ _ Hl) as (kls & -> & _).
  apply (proj2 (range_groups_entries dbType _ _ Hp)) in Hg as (k & v & Hk & ->).
  simpl. rewrite accumulate_empty_lookup in Hk.
  case_decide as Hin; [|discriminate]. inversion Hk; subst v.
  apply list_elem_of_fmap in Hin as ([k' l] & Hkk & Hkl). simpl in Hkk. subst k'.
  assert (Hl' : l ∈ leaves_of_key k kls) by (apply leaves_of_key_elem, Hkl).
  intros Hnil. rewrite Hnil in Hl'. inversion Hl'.
Qed.

Lemma fetch_groups_nonempty_witness :
  fetchPsqlLayouts (ok_stream rows_typed) "redshift" (Ok layout_typed) /\
  mkLayout "audit" "audit" "redshift" LayoutTypeNone
    [mkLayout "t3" "audit" "redshift" LayoutTypeTable []] ∈ layout_typed /\
  Children (mkLayout "audit" "audit" "redshift" LayoutTypeNone
    [mkLayout "t3" "audit" "redshift" LayoutTypeTable []]) <> [].
Proof.
  assert (H : fetchPsqlLayouts (ok_stream rows_typed) "redshift" (Ok layout_typed))
    by (rewrite <- fetchPsqlLayouts_run_typed; apply fetchPsqlLayouts_run_sound).
  assert (Hg : mkLayout "audit" "audit" "redshift" LayoutTypeNone
    [mkLayout "t3" "audit" "redshift" LayoutTypeTable []] ∈ layout_typed) by left.
  split; [exact H|]. split; [exact Hg|].
  exact (fetch_groups_nonempty _ _ _ _ H Hg).
Defined.

Lemma append_child_comm (m : childMap) (k1 k2 : string) (l1 l2 : Layout) :
  k1 <> k2 ->
  append_child (append_child m k1 l1) k2 l2 =
  append_child (append_child m k2 l2) k1 l1.
Proof.
  intros Hne. unfold append_child.
  rewrite (lookup_insert_ne _ k1 k2) by done.
  rewrite (lookup_insert_ne _ k2 k1) by congruence.
  apply insert_insert_ne. congruence.
Qed.

(** A prefix of the stream either ends the run by itself (whatever
    follows), or is read in full and leaves the loop with some map. *)
Lemma fetch_loop_app_cases (dbType : string) (s1 : stream) (m : childMap) :
  (forall t t', fetch_loop dbType m (s1 ++ t) = fetch_loop dbType m (s1 ++ t')) \/
  exists m1, forall t, fetch_loop dbType m (s1 ++ t) = fetch_loop dbType m1 t.
Proof.
  revert m. induction s1 as [|[[r|] [e|]] s1 IH]; intros m; simpl.
  - right. exists m. reflexivity.
  - left. reflexivity.
  - destruct (handle_row dbType m r) as [m'|].
    + destruct (IH m') as [H|[m1 H]]; [left|right]; [exact H|exists m1; exact H].
    + left. reflexivity.
  - left. reflexivity.
  - left. reflexivity.
Qed.

(** X6: only the relative order of rows with the same schema matters:
    wherever they occur in a stream, swapping two adjacent error-free,
    well-formed rows whose schema values differ leaves the possible
    outcomes unchanged. *)
Theorem fetch_swap_rows (dbType : string) (s1 s2 : stream) (r1 r2 : Row)
    (res : outcome (list Layout)) :
  row_wf dbType r1 = true -> row_wf dbType r2 = true ->
  assert_string r1 0 <> assert_string r2 0 ->
  fetchPsqlLayouts (s1 ++ (Some r1, None) :: (Some r2, None) :: s2) dbType res <->
  fetchPsqlLayouts (s1 ++ (Some r2, None) :: (Some r1, None) :: s2) dbType res.
Proof.
  intros Hw1 Hw2 Hne.
  unfold row_wf in Hw1, Hw2. apply bool_decide_eq_true in Hw1 as [[k1 l1] H1].
  apply bool_decide_eq_true in Hw2 as [[k2 l2] H2].
  destruct (row_leaf_key _ _ _ _ H1) as (Hk1 & _).
  destruct (row_leaf_key _ _ _ _ H2) as (Hk2 & _).
  assert (Hk : k1 <> k2) by (intros ->; apply Hne; congruence).
  unfold fetchPsqlLayouts.
  destruct (fetch_loop_app_cases dbType s1 ∅) as [E|[m1 E]].
  { rewrite (E _ ((Some r2, None) :: (Some r1, None) :: s2)). reflexivity. }
  rewrite !E. simpl. rewrite !handle_row_leaf, H1, H2. simpl.
  rewrite !handle_row_leaf, H1, H2. simpl.
  rewrite append_child_comm by exact Hk. reflexivity.
Qed.

Lemma fetch_swap_rows_witness :
  row_wf "redshift" [VString "public"; VString "t2"; VString "VIEW"] = true /\
  row_wf "redshift" [VString "audit"; VString "t3"; VString "TABLE"] = true /\
  assert_string [VString "public"; VString "t2"; VString "VIEW"] 0 <>
    assert_string [VString "audit"; VString "t3"; VString "TABLE"] 0 /\
  (fetchPsqlLayouts
     ([(Some [VString "public"; VString "t1"; VString "TABLE"], None)] ++
      (Some [VString "public"; VString "t2"; VString "VIEW"], None) ::
      (Some [VString "audit"; VString "t3"; VString "TABLE"], None) ::
      [(None, Some (RowError "late"))])
     "redshift" (Ok layout_typed) <->
   fetchPsqlLayouts
     ([(Some [VString "public"; VString "t1"; VString "TABLE"], None)] ++
      (Some [VString "audit"; VString "t3"; VString "TABLE"], None) ::
      (Some [VString "public"; VString "t2"; VString "VIEW"], None) ::
      [(None, Some (RowError "late"))])
     "redshift" (Ok layout_typed)).
Proof.
  assert (Hw1 : row_wf "redshift" [VString "public"; VString "t2"; VString "VIEW"] = true)
    by reflexivity.
  assert (Hw2 : row_wf "redshift" [VString "audit"; VString "t3"; VString "TABLE"] = true)
    by reflexivity.
  assert (Hne : assert_string [VString "public"; VString "t2"; VString "VIEW"] 0 <>
                assert_string [VString "audit"; VString "t3"; VString "TABLE"] 0)
    by discriminate.
  split; [exact Hw1|]. split; [exact Hw2|]. split; [exact Hne|].
  exact (fetch_swap_rows "redshift"
           [(Some [VString "public"; VString "t1"; VString "TABLE"], None)]
           [(None, Some (RowError "late"))]
           _ _ (Ok layout_typed) Hw1 Hw2 Hne).
Defined.

Lemma assert_string_take (r : Row) (n i : nat) :
  i < n -> assert_string (take n r) i = assert_string r i.
Proof.
  intros Hi. unfold assert_string.
  pose proof (lookup_take_lt (A := value) r n i Hi) as E.
  change (list value) with Row in E. rewrite E. reflexivity.
Qed.

Lemma handle_row_take (dbType : string) (m : childMap) (r : Row) :
  handle_row dbType m (take (row_width dbType) r) = handle_row dbType m r.
Proof.
  unfold handle_row, row_width.
  destruct (String.eqb dbType redshiftClient);
    rewrite !assert_string_take by lia; reflexivity.
Qed.

(** X7: [fetchPsqlLayouts] never looks past the columns it needs: cutting
    every row down to its first two columns (three for Redshift, whose
    third column is the type) leaves the possible outcomes unchanged. *)
Theorem fetch_ignores_extra_columns (s : stream) (dbType : string)
    (res : outcome (list Layout)) :
  fetchPsqlLayouts (truncate_stream (row_width dbType) s) dbType res <->
  fetchPsqlLayouts s dbType res.
Proof.
  enough (E : forall m, fetch_loop dbType m (truncate_stream (row_width dbType) s) =
                        fetch_loop dbType m s)
    by (unfold fetchPsqlLayouts; rewrite E; reflexivity).
  induction s as [|[[r|] e] s IH]; intros m; simpl; [reflexivity| |reflexivity].
  destruct e; [reflexivity|]. rewrite handle_row_take.
  destruct (handle_row dbType m r); [apply IH|reflexivity].
Qed.

(** X8: on an error-free stream whose rows are all read, the number of
    group nodes is the number of distinct (untrimmed) schema values. *)
Theorem fetch_group_count (dbType : string) (rs : list Row) (out : list Layout) :
  fetchPsqlLayouts (ok_stream rs) dbType (Ok out) ->
  length out = length (remove_dups (schema_values rs)).
Proof.
  intros H.
  destruct (fetchPsqlLayouts_ok_stream_inv _ _ _ H) as (kls & order & Hm & Hp & ->).
  destruct (range_groups_entries dbType _ _ Hp) as [Hnd _].
  rewrite <- (length_map Name).
  apply Permutation_length, NoDup_Permutation;
    [exact Hnd|apply NoDup_remove_dups|].
  intros x. rewrite range_groups_names, elem_of_remove_dups.
  unfold schema_values. rewrite list_elem_of_omap.
  rewrite <- (proj2 (mapM_row_leaf_keys _ _ _ x Hm)).
  rewrite list_elem_of_fmap. split.
  - intros ([x' v] & -> & Hin). rewrite Hp, elem_of_map_to_list in Hin.
    rewrite accumulate_empty_lookup in Hin. simpl.
    case_decide; [assumption|discriminate].
  - intros Hx. exists (x, leaves_of_key x kls). split; [reflexivity|].
    rewrite Hp, elem_of_map_to_list, accumulate_empty_lookup.
    case_decide; [reflexivity|contradiction].
Qed.

Lemma fetch_group_count_witness :
  fetchPsqlLayouts (ok_stream rows_typed) "redshift" (Ok layout_typed) /\
  length layout_typed = length (remove_dups (schema_values rows_typed)).
Proof.
  assert (H : fetchPsqlLayouts (ok_stream rows_typed) "redshift" (Ok layout_typed))
    by (rewrite <- fetchPsqlLayouts_run_typed; apply fetchPsqlLayouts_run_sound).
  split; [exact H|]. exact (fetch_group_count _ _ _ H).
Defined.

(** ** RedshiftClient.Layout *)

(** X9: when the driver cannot hand out a connection, or rejects the
    metadata query, [Layout] returns that driver error and nothing else,
    whatever rows the stream would have yielded. *)
Theorem Layout_driver_error (connFail queryFail : option error) (e : error)
    (s : stream) (w : World) (res : outcome (list Layout)) :
  connFail = Some e \/ (connFail = None /\ queryFail = Some e) ->
  RedshiftClient_Layout connFail queryFail s w res <-> res = Err e.
Proof.
  intros [->|[-> ->]]; unfold RedshiftClient_Layout; simpl; reflexivity.
Qed.

Lemma Layout_driver_error_witness :
  (None = @None error /\ Some (QueryError "denied") = Some (QueryError "denied")) /\
  (RedshiftClient_Layout None (Some (QueryError "denied")) (ok_stream rows_typed)
     (mkWorld 0 []) (Err (QueryError "denied")) <->
   @Err (list Layout) (QueryError "denied") = Err (QueryError "denied")).
Proof.
  assert (Hc : None = @None error /\ Some (QueryError "denied") = Some (QueryError "denied"))
    by (split; reflexivity).
  split; [exact Hc|].
  exact (Layout_driver_error None (Some (QueryError "denied")) (QueryError "denied")
           (ok_stream rows_typed) (mkWorld 0 []) _ (or_intror Hc)).
Defined.

(** X10: when the query succeeds and the iterator yields only rows with
    string schema, name and type columns, [Layout] succeeds, and every
    possible outcome is a layout with exactly one leaf per row. *)
Theorem Layout_wellformed_rows (rs : list Row) (w : World) :
  Forall (fun r => row_wf redshiftClient r = true) rs ->
  (exists out, RedshiftClient_Layout None None (ok_stream rs) w (Ok out)) /\
  (forall res, RedshiftClient_Layout None None (ok_stream rs) w res ->
     exists out, res = Ok out /\ leaf_count out = length rs).
Proof.
  intros Hwf. unfold RedshiftClient_Layout. simpl. split.
  - destruct (fetch_ok_stream_run_ok _ _ Hwf) as [out Hout].
    exists out. rewrite <- Hout. apply fetchPsqlLayouts_run_sound.
  - intros res H.
    destruct (mapM_row_leaf_wf _ _ Hwf) as [kls Hm].
    destruct res as [out|e|].
    + exists out. split; [reflexivity|]. exact (fetch_ok_stream_leaf_count _ _ _ H).
    + unfold fetchPsqlLayouts in H. rewrite fetch_loop_ok_stream, Hm in H.
      destruct H as (order & _ & H). discriminate.
    + unfold fetchPsqlLayouts in H. rewrite fetch_loop_ok_stream, Hm in H.
      destruct H as (order & _ & H). discriminate.
Qed.

Lemma Layout_wellformed_rows_witness :
  Forall (fun r => row_wf redshiftClient r = true) rows_typed /\
  exists out, RedshiftClient_Layout None None (ok_stream rows_typed) (mkWorld 0 []) (Ok out).
Proof.
  assert (Hwf : Forall (fun r => row_wf redshiftClient r = true) rows_typed)
    by (repeat constructor).
  split; [exact Hwf|].
  exact (proj1 (Layout_wellformed_rows rows_typed (mkWorld 0 []) Hwf)).
Defined.
